(** * Art Gallery Problem: the geometric engine of [game.py]

    A shallow embedding of [point_in_polygon], [cross_product],
    [segment_ray_intersection], [cast_ray], [dedupe_points],
    [visibility_polygon] and the event handling of the main loop.

    Numbers.  Python evaluates the geometry on ints and binary64 floats.
    Every value of either kind is a rational number, and the embedding
    computes on [Q] with exact arithmetic: rounding, overflow and NaN are
    outside the model.  The decimal literals of the source ([1e-9],
    [1e-8], ...) stand for the rationals they denote.  [math.cos],
    [math.sin] and [math.atan2] are not rational functions; they are
    parameters of the sections that use them.

    Errors.  A Python expression may raise.  The operations that can do so
    in this program are true division ([ZeroDivisionError]), the remainder
    [%] (same error) and list indexing ([IndexError]); they are modelled as
    fallible operations in a small error monad, so that "does not raise"
    is a statement about the embedding and not an assumption. *)

From Stdlib Require Import List Bool Arith Lia ZArith QArith Qabs Lqa.
From Stdlib Require Import Sorted Permutation Relations.
Import ListNotations.

Local Open Scope Q_scope.

(** ** Exceptions and the error monad *)

Inductive exn : Type :=
| ZeroDivisionError
| IndexError.

Inductive result (A : Type) : Type :=
| Ok (a : A)
| Raise (e : exn).

Arguments Ok {A} a.
Arguments Raise {A} e.

Definition bind {A B : Type} (m : result A) (k : A -> result B) : result B :=
  match m with
  | Ok a => k a
  | Raise e => Raise e
  end.

Notation "x <- m ;; k" := (bind m (fun x => k))
  (at level 61, m at next level, right associativity).
Notation "' pat <- m ;; k" := (bind m (fun x => match x with pat => k end))
  (at level 61, pat pattern, m at next level, right associativity).

(** [for x in l: s = body(x, s)], stopping at the first exception. *)
Fixpoint for_each {A S : Type} (l : list A) (body : A -> S -> result S) (s : S)
  : result S :=
  match l with
  | [] => Ok s
  | a :: l' => s' <- body a s ;; for_each l' body s'
  end.

(** [range(n)] *)
Definition range (n : nat) : list nat := seq 0 n.

(** ** Python's numeric operations on exact rationals *)

Definition Qltb (a b : Q) : bool := negb (Qle_bool b a).
Definition Qgtb (a b : Q) : bool := Qltb b a.
Definition Qleb (a b : Q) : bool := Qle_bool a b.

(** [a / b]: raises on a zero divisor. *)
Definition py_div (a b : Q) : result Q :=
  if Qeq_bool b 0 then Raise ZeroDivisionError else Ok (a / b).

(** [a % b] on the non-negative ints used as indices. *)
Definition py_mod (a b : nat) : result nat :=
  match b with
  | O => Raise ZeroDivisionError
  | S _ => Ok (Nat.modulo a b)
  end.

(** [l[i]] for a non-negative index. *)
Definition py_index {A : Type} (l : list A) (i : nat) : result A :=
  match nth_error l i with
  | Some a => Ok a
  | None => Raise IndexError
  end.

(** ** Points and the constants of the module *)

Definition Point : Type := (Q * Q)%type.

Definition polygon_points : list Point :=
  [(100, 100); (350, 80); (450, 150); (400, 250); (500, 300);
   (350, 350); (450, 450); (250, 400); (150, 450); (120, 250)].

Definition WIDTH : Q := 600.
Definition HEIGHT : Q := 600.

Definition EPS : Q := 1 # 1000000000.
Definition RAY_LENGTH : Q := WIDTH + HEIGHT.

(** The literals [1e-8], [1e-7], [1e-6] and [1e-5]. *)
Definition lit_1e_8 : Q := 1 # 100000000.
Definition lit_1e_7 : Q := 1 # 10000000.
Definition lit_1e_6 : Q := 1 # 1000000.
Definition lit_1e_5 : Q := 1 # 100000.

(** ** [point_in_polygon] *)

(** The divisor [(yj - yi) if abs(yj - yi) > EPS else EPS]. *)
Definition guarded_delta (yi yj : Q) : Q :=
  if Qgtb (Qabs (yj - yi)) EPS then yj - yi else EPS.

(** The body of the loop: one edge, updating the crossing counter. *)
Definition point_in_polygon_body (point : Point) (poly : list Point)
  (i : nat) (cnt : nat) : result nat :=
  let '(x, y) := point in
  let n := length poly in
  '(xi, yi) <- py_index poly i ;;
  j <- py_mod (i + 1) n ;;
  '(xj, yj) <- py_index poly j ;;
  let between := negb (Bool.eqb (Qgtb yi y) (Qgtb yj y)) in
  q <- py_div ((xj - xi) * (y - yi)) (guarded_delta yi yj) ;;
  let intersect := q + xi in
  if between && Qltb x intersect then Ok (cnt + 1)%nat else Ok cnt.

Definition point_in_polygon (point : Point) (poly : list Point) : result bool :=
  let n := length poly in
  cnt <- for_each (range n) (point_in_polygon_body point poly) 0%nat ;;
  Ok (if Nat.eqb (Nat.modulo cnt 2) 1 then true else false).

(** ** [cross_product] and [segment_ray_intersection] *)

Definition cross_product (p1 p2 p3 p4 : Point) : Q :=
  let '(x1, y1) := p1 in
  let '(x2, y2) := p2 in
  let '(x3, y3) := p3 in
  let '(x4, y4) := p4 in
  (x2 - x1) * (y4 - y3) - (y2 - y1) * (x4 - x3).

(** The triple [(t, u, (ix, iy))] returned on a hit. *)
Definition Hit : Type := (Q * Q * Point)%type.

Definition segment_ray_intersection (p1 p2 p3 p4 : Point) : result (option Hit) :=
  let '(x1, y1) := p1 in
  let '(x2, y2) := p2 in
  let den := cross_product p1 p2 p3 p4 in
  if Qltb (Qabs den) EPS then Ok None
  else
    t <- py_div (cross_product p1 p3 p3 p4) den ;;
    u <- py_div (cross_product p1 p3 p1 p2) den ;;
    let ix := x1 + t * (x2 - x1) in
    let iy := y1 + t * (y2 - y1) in
    Ok (Some (t, u, (ix, iy))).

(** ** [dedupe_points] *)

(** The inner loop [for q in out: if ... < tol * tol: found = True; break]. *)
Fixpoint dedupe_found (p : Point) (out : list Point) (tol : Q) : bool :=
  match out with
  | [] => false
  | q :: out' =>
      if Qltb ((fst p - fst q) ^ 2 + (snd p - snd q) ^ 2) (tol * tol)
      then true
      else dedupe_found p out' tol
  end.

(** The outer loop, with [out] as the accumulator. *)
Fixpoint dedupe_loop (points : list Point) (out : list Point) (tol : Q)
  : list Point :=
  match points with
  | [] => out
  | p :: points' =>
      if dedupe_found p out tol
      then dedupe_loop points' out tol
      else dedupe_loop points' (out ++ [p]) tol
  end.

Definition dedupe_points (points : list Point) (tol : Q) : list Point :=
  dedupe_loop points [] tol.

(** The default argument [tol=1e-6]. *)
Definition dedupe_points_default (points : list Point) : list Point :=
  dedupe_points points lit_1e_6.

(** ** [float('inf')] as the initial value of [first_t] *)

Inductive xfloat : Type :=
| Finite (q : Q)
| Infinity.

(** [t < first_t] for a finite [t]; a quotient that overflows to [inf] is
    outside the model. *)
Definition lt_xfloat (t : Q) (first_t : xfloat) : bool :=
  match first_t with
  | Finite f => Qltb t f
  | Infinity => true
  end.

(** ** [list.sort(key=...)]

    The library sort is stable and compares keys with [<] only; a stable
    insertion sort computes the same list. *)

Section Sort.
Variable A : Type.
Variable key : A -> Q.

Fixpoint insert_by_key (x : A) (l : list A) : list A :=
  match l with
  | [] => [x]
  | y :: l' =>
      if Qltb (key y) (key x) then y :: insert_by_key x l'
      else x :: y :: l'
  end.

Fixpoint sort_by_key (l : list A) : list A :=
  match l with
  | [] => []
  | x :: l' => insert_by_key x (sort_by_key l')
  end.
End Sort.

Arguments insert_by_key {A} key x l.
Arguments sort_by_key {A} key l.

(** ** [cast_ray] and [visibility_polygon] *)

Section Trig.
(** [math.cos], [math.sin], [math.atan2] *)
Variables cos sin : Q -> Q.
Variable atan2 : Q -> Q -> Q.

Definition ray_end_of (guard : Point) (angle : Q) : Point :=
  (fst guard + RAY_LENGTH * cos angle, snd guard + RAY_LENGTH * sin angle).

(** [t > 1e-8 and -1e-8 <= u <= 1 + 1e-8] *)
Definition accepted (t u : Q) : bool :=
  Qgtb t lit_1e_8 && (Qleb (- lit_1e_8) u && Qleb u (1 + lit_1e_8)).

(** The loop body; the state is [(first_t, first_point)]. *)
Definition cast_ray_body (guard ray_end : Point) (polygon : list Point)
  (i : nat) (st : xfloat * option Point) : result (xfloat * option Point) :=
  a <- py_index polygon i ;;
  j <- py_mod (i + 1) (length polygon) ;;
  b <- py_index polygon j ;;
  res <- segment_ray_intersection guard ray_end a b ;;
  match res with
  | Some (t, u, ip) =>
      if accepted t u then
        if lt_xfloat t (fst st) then Ok (Finite t, Some ip) else Ok st
      else Ok st
  | None => Ok st
  end.

Definition cast_ray (guard : Point) (angle : Q) (polygon : list Point)
  : result (option Point) :=
  let ray_end := ray_end_of guard angle in
  st <- for_each (range (length polygon))
                 (cast_ray_body guard ray_end polygon) (Infinity, None) ;;
  Ok (snd st).

(** The angle of [p] as seen from [guard]. *)
Definition angle_from (guard p : Point) : Q :=
  atan2 (snd p - snd guard) (fst p - fst guard).

Definition visibility_angles (guard : Point) (polygon : list Point) : list Q :=
  fold_left
    (fun angles v =>
       let angle := angle_from guard v in
       angles ++ [angle - lit_1e_7; angle; angle + lit_1e_7])
    polygon [].

Definition visibility_polygon (guard : Point) (polygon : list Point)
  : result (list Point) :=
  let angles := visibility_angles guard polygon in
  inters <- for_each angles
              (fun a inters =>
                 p <- cast_ray guard a polygon ;;
                 match p with
                 | Some p => Ok (inters ++ [p])
                 | None => Ok inters
                 end) [] ;;
  let inters := dedupe_points inters lit_1e_5 in
  Ok (sort_by_key (angle_from guard) inters).

(** ** The main loop *)

Inductive event : Type :=
| QUIT
| MOUSEBUTTONDOWN (pos : Point)
| OtherEvent.

(** The two module variables the loop writes. *)
Record state : Type := mkState { running : bool; guards : list Point }.

Definition initial_state : state := mkState true [].

(** One iteration of [for event in pygame.event.get()]. *)
Definition handle_event (polygon : list Point) (ev : event) (st : state)
  : result state :=
  match ev with
  | QUIT => Ok (mkState false (guards st))
  | MOUSEBUTTONDOWN pos =>
      inside <- point_in_polygon pos polygon ;;
      if inside then Ok (mkState (running st) (guards st ++ [pos]))
      else Ok st
  | OtherEvent => Ok st
  end.

(** [for guard in guards]: the overlays handed to the renderer. *)
Definition draw_guards (polygon : list Point) (gs : list Point)
  : result (list (list Point)) :=
  for_each gs
    (fun guard drawn =>
       vis <- visibility_polygon guard polygon ;;
       if (3 <=? length vis)%nat then Ok (drawn ++ [vis]) else Ok drawn)
    [].

(** The body of [while running], for the events of one frame. *)
Definition frame (events : list event) (st : state) : result state :=
  _ <- draw_guards polygon_points (guards st) ;;
  for_each events (handle_event polygon_points) st.

Inductive step : state -> state -> Prop :=
| step_frame (st st' : state) (events : list event) :
    running st = true -> frame events st = Ok st' -> step st st'.

Inductive reachable : state -> Prop :=
| reachable_init : reachable initial_state
| reachable_step (st st' : state) :
    reachable st -> step st st' -> reachable st'.
End Trig.

(** ** Vocabulary of the specification *)

(** Edge [i] of the closed boundary, [(poly[i], poly[(i + 1) % n])]. *)
Definition edge (poly : list Point) (i : nat) : Point * Point :=
  (nth i poly (0, 0), nth ((i + 1) mod length poly) poly (0, 0)).

Definition edges (poly : list Point) : list (Point * Point) :=
  map (edge poly) (range (length poly)).

(** [(yi > y) != (yj > y)] *)
Definition straddles (y : Q) (e : Point * Point) : bool :=
  negb (Bool.eqb (Qgtb (snd (fst e)) y) (Qgtb (snd (snd e)) y)).

(** The x-coordinate at which the line through the edge meets the
    horizontal line at height [y]. *)
Definition crossing_x (y : Q) (e : Point * Point) : Q :=
  let '((xi, yi), (xj, yj)) := e in
  xi + (xj - xi) * (y - yi) / (yj - yi).

(** The edge is counted by the even-odd rule with a rightward ray. *)
Definition crosses_right (point : Point) (e : Point * Point) : bool :=
  straddles (snd point) e && Qltb (fst point) (crossing_x (snd point) e).

(** The same with the y-delta replaced by [EPS] on near-horizontal edges. *)
Definition guarded_crossing_x (y : Q) (e : Point * Point) : Q :=
  let '((xi, yi), (xj, yj)) := e in
  (xj - xi) * (y - yi) / guarded_delta yi yj + xi.

Definition crosses_right_guarded (point : Point) (e : Point * Point) : bool :=
  straddles (snd point) e
  && Qltb (fst point) (guarded_crossing_x (snd point) e).

Definition count {A : Type} (f : A -> bool) (l : list A) : nat :=
  length (filter f l).

(** Squared distance, as [dedupe_points] computes it. *)
Definition sqdist (p q : Point) : Q :=
  (fst p - fst q) ^ 2 + (snd p - snd q) ^ 2.

(** [l1] is [l2] with some elements removed. *)
Inductive subsequence {A : Type} : list A -> list A -> Prop :=
| subsequence_nil : subsequence [] []
| subsequence_keep (a : A) (l1 l2 : list A) :
    subsequence l1 l2 -> subsequence (a :: l1) (a :: l2)
| subsequence_drop (a : A) (l1 l2 : list A) :
    subsequence l1 l2 -> subsequence l1 (a :: l2).

(** Edge [i] of [polygon] yields the accepted hit [h] for the ray cast from
    [guard] towards [ray_end]. *)
Definition accepted_hit (guard ray_end : Point) (polygon : list Point)
  (i : nat) (h : Hit) : Prop :=
  (i < length polygon)%nat
  /\ segment_ray_intersection guard ray_end
       (fst (edge polygon i)) (snd (edge polygon i)) = Ok (Some h)
  /\ accepted (fst (fst h)) (snd (fst h)) = true.

(** What one iteration does to [(first_t, first_point)], given the result
    of the intersection test. *)
Definition cast_ray_update (res : option Hit) (st : xfloat * option Point)
  : xfloat * option Point :=
  match res with
  | Some (t, u, ip) =>
      if accepted t u then
        if lt_xfloat t (fst st) then (Finite t, Some ip) else st
      else st
  | None => st
  end.

(** The loop invariant after the edges [0 .. k-1]. *)
Definition cast_ray_invariant (guard ray_end : Point) (polygon : list Point)
  (k : nat) (st : xfloat * option Point) : Prop :=
  match st with
  | (Infinity, None) =>
      forall j h, (j < k)%nat -> ~ accepted_hit guard ray_end polygon j h
  | (Finite t, Some ip) =>
      (exists i u, (i < k)%nat /\ accepted_hit guard ray_end polygon i (t, u, ip))
      /\ (forall j h, (j < k)%nat -> accepted_hit guard ray_end polygon j h ->
                      t <= fst (fst h))
  | _ => False
  end.

(** The far-apart relation the loop maintains between a kept point [q] and a
    point [p] kept after it. *)
Definition far_apart (tol : Q) (q p : Point) : Prop :=
  tol * tol <= sqdist p q.

(** Every stored guard passed the point-in-polygon test. *)
Definition guards_inside (polygon : list Point) (st : state) : Prop :=
  Forall (fun g => point_in_polygon g polygon = Ok true) (guards st).

(** The order [list.sort] establishes between an element and a later one. *)
Definition key_le {A : Type} (key : A -> Q) (a b : A) : Prop :=
  key a <= key b.

(** A counterexample polygon for the unguarded crossing rule: a thin
    triangle whose lower edge rises by [1e-10] over a run of [10]. *)
Definition thin_triangle : list Point :=
  [(0, 0); (10, 1 # 10000000000); (0, 1)].

Definition thin_probe : Point := (1, 1 # 20000000000).


(** The positions among [events] that the click handler accepts. *)
Definition accepted_clicks (polygon : list Point) (events : list event)
  : list Point :=
  flat_map
    (fun ev =>
       match ev with
       | MOUSEBUTTONDOWN pos =>
           match point_in_polygon pos polygon with
           | Ok true => [pos]
           | _ => []
           end
       | _ => []
       end)
    events.

(** Whether [events] holds a [QUIT]. *)
Definition quit_seen (events : list event) : bool :=
  existsb (fun ev => match ev with QUIT => true | _ => false end) events.

(** * Properties *)

(** ** Comparisons *)

Lemma Qltb_true (a b : Q) : Qltb a b = true <-> a < b.
Proof.
  unfold Qltb. rewrite negb_true_iff, <- not_true_iff_false, Qle_bool_iff.
  split; [apply Qnot_le_lt | apply Qlt_not_le].
Qed.

Lemma Qltb_false (a b : Q) : Qltb a b = false <-> b <= a.
Proof.
  unfold Qltb. rewrite negb_false_iff. apply Qle_bool_iff.
Qed.

Lemma EPS_pos : 0 < EPS.
Proof. reflexivity. Qed.

(** ** The fallible operations *)

Lemma py_div_ok (a b : Q) : ~ b == 0 -> py_div a b = Ok (a / b).
Proof.
  intros Hb. unfold py_div.
  destruct (Qeq_bool b 0) eqn:E; [|reflexivity].
  apply Qeq_bool_iff in E. contradiction.
Qed.

Lemma py_mod_ok (a b : nat) :
  (0 < b)%nat -> py_mod a b = Ok (a mod b)%nat /\ (a mod b < b)%nat.
Proof.
  intros Hb. destruct b as [|b]; [lia|]. split; [reflexivity|].
  apply Nat.mod_upper_bound. lia.
Qed.

Lemma py_index_ok {A : Type} (l : list A) (i : nat) (d : A) :
  (i < length l)%nat -> py_index l i = Ok (nth i l d).
Proof.
  intros Hi. unfold py_index.
  rewrite (nth_error_nth' l d Hi). reflexivity.
Qed.

(** ** Loops *)

Lemma for_each_total {A S : Type} (body : A -> S -> result S) (l : list A) :
  (forall a s, exists s', body a s = Ok s') ->
  forall s, exists s', for_each l body s = Ok s'.
Proof.
  intros Hbody. induction l as [|a l IH]; intros s; simpl.
  - now exists s.
  - destruct (Hbody a s) as [s1 ->]. simpl. apply IH.
Qed.

Lemma for_seq_invariant {S : Type} (Inv : nat -> S -> Prop)
  (body : nat -> S -> result S) (n : nat) :
  (forall i s, (i < n)%nat -> Inv i s ->
               exists s', body i s = Ok s' /\ Inv (Datatypes.S i) s') ->
  forall len start s,
    (start + len = n)%nat -> Inv start s ->
    exists s', for_each (seq start len) body s = Ok s' /\ Inv n s'.
Proof.
  intros Hbody. induction len as [|len IH]; intros start s Hn Hs; simpl.
  - exists s. split; [reflexivity|]. now replace n with start by lia.
  - destruct (Hbody start s) as (s1 & -> & Hs1); [lia|assumption|].
    simpl. apply IH; [lia|assumption].
Qed.

Lemma for_range_invariant {S : Type} (Inv : nat -> S -> Prop)
  (body : nat -> S -> result S) (n : nat) (s : S) :
  Inv 0%nat s ->
  (forall i s, (i < n)%nat -> Inv i s ->
               exists s', body i s = Ok s' /\ Inv (Datatypes.S i) s') ->
  exists s', for_each (range n) body s = Ok s' /\ Inv n s'.
Proof.
  intros H0 Hbody. unfold range.
  apply (for_seq_invariant Inv body n Hbody); [reflexivity|assumption].
Qed.

(** ** Edges *)

Lemma edge_lookup (poly : list Point) (i : nat) :
  (i < length poly)%nat ->
  exists j,
    py_index poly i = Ok (fst (edge poly i))
    /\ py_mod (i + 1) (length poly) = Ok j
    /\ py_index poly j = Ok (snd (edge poly i)).
Proof.
  intros Hi.
  destruct (py_mod_ok (i + 1) (length poly)) as [Hm Hlt]; [lia|].
  exists ((i + 1) mod length poly)%nat. unfold edge; simpl.
  repeat split.
  - now apply py_index_ok.
  - assumption.
  - now apply py_index_ok.
Qed.

Lemma count_app {A : Type} (f : A -> bool) (l1 l2 : list A) :
  count f (l1 ++ l2) = (count f l1 + count f l2)%nat.
Proof. unfold count. now rewrite filter_app, length_app. Qed.

Lemma edges_prefix_snoc (poly : list Point) (i : nat) :
  map (edge poly) (seq 0 (S i)) = map (edge poly) (seq 0 i) ++ [edge poly i].
Proof. rewrite seq_S, map_app. reflexivity. Qed.

(** ** [point_in_polygon] *)

Lemma guarded_delta_nonzero (yi yj : Q) : ~ guarded_delta yi yj == 0.
Proof.
  unfold guarded_delta, Qgtb.
  destruct (Qltb EPS (Qabs (yj - yi))) eqn:E.
  - apply Qltb_true in E. intros H0. rewrite H0 in E.
    revert E. apply Qle_not_lt. discriminate.
  - discriminate.
Qed.

Lemma guarded_delta_near_horizontal (yi yj : Q) :
  Qabs (yj - yi) <= EPS -> guarded_delta yi yj = EPS.
Proof.
  intros H. unfold guarded_delta, Qgtb.
  apply Qltb_false in H. now rewrite H.
Qed.

Lemma point_in_polygon_body_ok (point : Point) (poly : list Point)
  (i cnt : nat) :
  (i < length poly)%nat ->
  point_in_polygon_body point poly i cnt =
  Ok (if crosses_right_guarded point (edge poly i) then cnt + 1 else cnt)%nat.
Proof.
  intros Hi. destruct (edge_lookup poly i Hi) as (j & Ha & Hj & Hb).
  unfold point_in_polygon_body. destruct point as [x y].
  rewrite Ha. destruct (edge poly i) as [[xi yi] [xj yj]] eqn:Ee. simpl.
  rewrite Hj. simpl. rewrite Hb. simpl.
  rewrite py_div_ok by apply guarded_delta_nonzero. simpl.
  unfold crosses_right_guarded, straddles, guarded_crossing_x. simpl.
  destruct (_ && _); reflexivity.
Qed.

Lemma point_in_polygon_count (point : Point) (poly : list Point) :
  for_each (range (length poly)) (point_in_polygon_body point poly) 0%nat =
  Ok (count (crosses_right_guarded point) (edges poly)).
Proof.
  destruct (for_range_invariant
              (fun i cnt =>
                 cnt = count (crosses_right_guarded point)
                             (map (edge poly) (seq 0 i)))
              (point_in_polygon_body point poly) (length poly) 0%nat)
    as (cnt & Hrun & Hcnt).
  - reflexivity.
  - intros i s Hi ->. rewrite point_in_polygon_body_ok by assumption.
    eexists; split; [reflexivity|].
    rewrite edges_prefix_snoc, count_app.
    unfold count at 4. cbn [filter].
    destruct (crosses_right_guarded point (edge poly i)); cbn [length]; lia.
  - rewrite Hrun, Hcnt. reflexivity.
Qed.

Lemma mod2_odd (n : nat) :
  (if Nat.eqb (n mod 2) 1 then true else false) = Nat.odd n.
Proof.
  rewrite <- Nat.bit0_mod, Nat.bit0_odd.
  destruct (Nat.odd n); reflexivity.
Qed.

Lemma point_in_polygon_parity (point : Point) (poly : list Point) :
  point_in_polygon point poly =
  Ok (Nat.odd (count (crosses_right_guarded point) (edges poly))).
Proof.
  unfold point_in_polygon. rewrite point_in_polygon_count. cbn [bind].
  now rewrite mod2_odd.
Qed.

Lemma Qltb_compat_r (x a b : Q) : a == b -> Qltb x a = Qltb x b.
Proof.
  intros E. unfold Qltb. now rewrite E.
Qed.

(** The degenerate edge of a one-vertex polygon never straddles. *)
Lemma straddles_loop (y : Q) (v : Point) : straddles y (v, v) = false.
Proof.
  unfold straddles. simpl. now rewrite Bool.eqb_reflx.
Qed.

Lemma point_in_polygon_degenerate (point : Point) (poly : list Point) :
  (length poly < 2)%nat -> point_in_polygon point poly = Ok false.
Proof.
  intros Hlen. rewrite point_in_polygon_parity.
  destruct poly as [|v [|w poly]]; simpl in Hlen; try lia.
  - reflexivity.
  - unfold edges, edge, count, crosses_right_guarded. cbn [length range seq map].
    cbn [Nat.add Nat.modulo Nat.divmod snd fst nth filter].
    change (nth (S 0 mod 1) [v] (0, 0)) with v.
    rewrite straddles_loop. reflexivity.
Qed.

(** ** [segment_ray_intersection] *)

Lemma Qabs_ge_nonzero (d e : Q) : 0 < e -> e <= Qabs d -> ~ d == 0.
Proof.
  intros He Hd H0. rewrite H0 in Hd. change (Qabs 0) with 0 in Hd.
  exact (Qle_not_lt _ _ Hd He).
Qed.

Lemma segment_ray_intersection_parallel (p1 p2 p3 p4 : Point) :
  Qabs (cross_product p1 p2 p3 p4) < EPS ->
  segment_ray_intersection p1 p2 p3 p4 = Ok None.
Proof.
  intros H. unfold segment_ray_intersection.
  destruct p1 as [x1 y1], p2 as [x2 y2].
  apply Qltb_true in H. now rewrite H.
Qed.

Lemma segment_ray_intersection_hit (p1 p2 p3 p4 : Point) :
  EPS <= Qabs (cross_product p1 p2 p3 p4) ->
  let den := cross_product p1 p2 p3 p4 in
  let t := cross_product p1 p3 p3 p4 / den in
  let u := cross_product p1 p3 p1 p2 / den in
  segment_ray_intersection p1 p2 p3 p4 =
  Ok (Some (t, u, (fst p1 + t * (fst p2 - fst p1),
                   snd p1 + t * (snd p2 - snd p1)))).
Proof.
  intros H den t u. unfold segment_ray_intersection.
  destruct p1 as [x1 y1], p2 as [x2 y2].
  pose proof (Qabs_ge_nonzero _ _ EPS_pos H) as Hden.
  apply Qltb_false in H. rewrite H.
  rewrite !py_div_ok by exact Hden. reflexivity.
Qed.

Lemma segment_ray_intersection_cases (p1 p2 p3 p4 : Point) :
  (Qabs (cross_product p1 p2 p3 p4) < EPS
   /\ segment_ray_intersection p1 p2 p3 p4 = Ok None)
  \/ (EPS <= Qabs (cross_product p1 p2 p3 p4)
      /\ exists h, segment_ray_intersection p1 p2 p3 p4 = Ok (Some h)).
Proof.
  destruct (Qlt_le_dec (Qabs (cross_product p1 p2 p3 p4)) EPS) as [H|H].
  - left. split; [assumption|]. now apply segment_ray_intersection_parallel.
  - right. split; [assumption|].
    eexists. now apply segment_ray_intersection_hit.
Qed.

Lemma segment_ray_intersection_total (p1 p2 p3 p4 : Point) :
  exists r, segment_ray_intersection p1 p2 p3 p4 = Ok r.
Proof.
  destruct (segment_ray_intersection_cases p1 p2 p3 p4)
    as [[_ H]|[_ [h H]]]; rewrite H; eauto.
Qed.

(** ** [cast_ray] *)

Lemma accepted_true_iff (t u : Q) :
  accepted t u = true <->
  (1 # 100000000) < t /\ - (1 # 100000000) <= u /\ u <= 1 + (1 # 100000000).
Proof.
  unfold accepted, Qgtb, Qleb. rewrite !andb_true_iff.
  rewrite Qltb_true, !Qle_bool_iff. reflexivity.
Qed.

Lemma cast_ray_body_ok (guard ray_end : Point) (polygon : list Point)
  (i : nat) (st : xfloat * option Point) :
  (i < length polygon)%nat ->
  exists res,
    segment_ray_intersection guard ray_end
      (fst (edge polygon i)) (snd (edge polygon i)) = Ok res
    /\ cast_ray_body guard ray_end polygon i st = Ok (cast_ray_update res st).
Proof.
  intros Hi. destruct (edge_lookup polygon i Hi) as (j & Ha & Hj & Hb).
  destruct (segment_ray_intersection_total guard ray_end
              (fst (edge polygon i)) (snd (edge polygon i))) as [res Hres].
  exists res. split; [assumption|].
  unfold cast_ray_body. rewrite Ha. cbn [bind]. rewrite Hj. cbn [bind].
  rewrite Hb. cbn [bind]. rewrite Hres. cbn [bind].
  destruct res as [[[t u] ip]|]; [|reflexivity].
  cbn [cast_ray_update]. destruct (accepted t u); [|reflexivity].
  destruct (lt_xfloat t (fst st)); reflexivity.
Qed.

Lemma accepted_hit_inv (guard ray_end : Point) (polygon : list Point)
  (i : nat) (h : Hit) (res : option Hit) :
  segment_ray_intersection guard ray_end
    (fst (edge polygon i)) (snd (edge polygon i)) = Ok res ->
  accepted_hit guard ray_end polygon i h ->
  res = Some h /\ accepted (fst (fst h)) (snd (fst h)) = true.
Proof.
  intros Hres (_ & Hh & Hacc). rewrite Hres in Hh.
  split; [congruence|assumption].
Qed.

Lemma cast_ray_step (guard ray_end : Point) (polygon : list Point)
  (i : nat) (st : xfloat * option Point) :
  (i < length polygon)%nat ->
  cast_ray_invariant guard ray_end polygon i st ->
  exists st',
    cast_ray_body guard ray_end polygon i st = Ok st'
    /\ cast_ray_invariant guard ray_end polygon (S i) st'.
Proof.
  intros Hi Hinv.
  destruct (cast_ray_body_ok guard ray_end polygon i st Hi) as (res & Hres & Hbody).
  exists (cast_ray_update res st). split; [assumption|].
  assert (Hskip :
    (forall h, ~ accepted_hit guard ray_end polygon i h) ->
    cast_ray_invariant guard ray_end polygon (S i) st).
  { intros Hno. destruct st as [[t0|] [ip0|]]; simpl in *; try contradiction.
    - destruct Hinv as [(i0 & u0 & Hi0 & Hhit0) Hmin]. split.
      + exists i0, u0. split; [lia|assumption].
      + intros j h Hj Hh. destruct (Nat.eq_dec j i) as [->|Hne].
        * now destruct (Hno h).
        * apply (Hmin j); [lia|assumption].
    - intros j h Hj Hh. destruct (Nat.eq_dec j i) as [->|Hne].
      + now apply (Hno h).
      + apply (Hinv j h); [lia|assumption]. }
  destruct res as [[[t u] ip]|]; cbn [cast_ray_update].
  2:{ apply Hskip. intros h Hh.
      destruct (accepted_hit_inv _ _ _ _ _ _ Hres Hh) as [E _]. discriminate. }
  destruct (accepted t u) eqn:Hacc.
  2:{ apply Hskip. intros h Hh.
      destruct (accepted_hit_inv _ _ _ _ _ _ Hres Hh) as [E Hacc'].
      injection E as <-. simpl in Hacc'. congruence. }
  assert (Hnew : accepted_hit guard ray_end polygon i (t, u, ip)).
  { repeat split; assumption. }
  destruct st as [[t0|] [ip0|]]; simpl in Hinv; try contradiction;
    cbn [fst lt_xfloat].
  - destruct Hinv as [(i0 & u0 & Hi0 & Hhit0) Hmin].
    destruct (Qltb t t0) eqn:Hlt; simpl.
    + apply Qltb_true in Hlt. split.
      * exists i, u. split; [lia|assumption].
      * intros j h Hj Hh. destruct (Nat.eq_dec j i) as [->|Hne].
        -- destruct (accepted_hit_inv _ _ _ _ _ _ Hres Hh) as [E _].
           injection E as <-. apply Qle_refl.
        -- apply Qle_trans with t0; [now apply Qlt_le_weak|].
           apply (Hmin j); [lia|assumption].
    + apply Qltb_false in Hlt. split.
      * exists i0, u0. split; [lia|assumption].
      * intros j h Hj Hh. destruct (Nat.eq_dec j i) as [->|Hne].
        -- destruct (accepted_hit_inv _ _ _ _ _ _ Hres Hh) as [E _].
           injection E as <-. exact Hlt.
        -- apply (Hmin j); [lia|assumption].
  - simpl. split.
    + exists i, u. split; [lia|assumption].
    + intros j h Hj Hh. destruct (Nat.eq_dec j i) as [->|Hne].
      * destruct (accepted_hit_inv _ _ _ _ _ _ Hres Hh) as [E _].
        injection E as <-. apply Qle_refl.
      * exfalso. apply (Hinv j h); [lia|assumption].
Qed.

Lemma cast_ray_loop (guard ray_end : Point) (polygon : list Point) :
  exists st,
    for_each (range (length polygon))
      (cast_ray_body guard ray_end polygon) (Infinity, None) = Ok st
    /\ cast_ray_invariant guard ray_end polygon (length polygon) st.
Proof.
  apply for_range_invariant.
  - simpl. intros j h Hj. lia.
  - intros i s Hi Hs. now apply cast_ray_step.
Qed.

Lemma cast_ray_total (cos sin : Q -> Q) (guard : Point) (angle : Q)
  (polygon : list Point) :
  exists r, cast_ray cos sin guard angle polygon = Ok r.
Proof.
  unfold cast_ray.
  destruct (cast_ray_loop guard (ray_end_of cos sin guard angle) polygon)
    as (st & -> & _).
  simpl. eauto.
Qed.

(** ** [dedupe_points] *)

Lemma sqdist_sym (p q : Point) : sqdist p q == sqdist q p.
Proof.
  unfold sqdist. simpl. ring.
Qed.

Lemma sqdist_self (p : Point) : sqdist p p == 0.
Proof.
  unfold sqdist. simpl. ring.
Qed.

Lemma dedupe_found_cons (p q : Point) (out : list Point) (tol : Q) :
  dedupe_found p (q :: out) tol =
  if Qltb (sqdist p q) (tol * tol) then true else dedupe_found p out tol.
Proof. reflexivity. Qed.

Lemma dedupe_found_true (p : Point) (out : list Point) (tol : Q) :
  dedupe_found p out tol = true <->
  exists q, In q out /\ sqdist p q < tol * tol.
Proof.
  induction out as [|q out IH].
  - simpl. split; [discriminate|]. intros (q & [] & _).
  - rewrite dedupe_found_cons.
    destruct (Qltb (sqdist p q) (tol * tol)) eqn:E.
    + apply Qltb_true in E. split; [|reflexivity].
      intros _. exists q. split; [now left|assumption].
    + apply Qltb_false in E. rewrite IH. split.
      * intros (q' & Hin & Hd). exists q'. split; [now right|assumption].
      * intros (q' & [<-|Hin] & Hd).
        -- exfalso. exact (Qle_not_lt _ _ E Hd).
        -- exists q'. auto.
Qed.

Lemma dedupe_found_false (p : Point) (out : list Point) (tol : Q) :
  dedupe_found p out tol = false ->
  Forall (fun q => tol * tol <= sqdist p q) out.
Proof.
  induction out as [|q out IH]; [constructor|].
  rewrite dedupe_found_cons.
  destruct (Qltb (sqdist p q) (tol * tol)) eqn:E; [discriminate|].
  intros H. constructor; [now apply Qltb_false|now apply IH].
Qed.

Lemma ForallOrdPairs_snoc {A : Type} (R : A -> A -> Prop) (l : list A) (a : A) :
  ForallOrdPairs R l -> Forall (fun b => R b a) l ->
  ForallOrdPairs R (l ++ [a]).
Proof.
  induction 1 as [|b l Hb Hl IH]; intros Ha; simpl.
  - repeat constructor.
  - inversion Ha; subst. constructor.
    + apply Forall_app. split; [assumption|]. now constructor.
    + now apply IH.
Qed.

Lemma dedupe_loop_kept (points out : list Point) (tol : Q) :
  exists kept,
    dedupe_loop points out tol = out ++ kept /\ subsequence kept points.
Proof.
  revert out. induction points as [|p points IH]; intros out; simpl.
  - exists []. rewrite app_nil_r. split; [reflexivity|constructor].
  - destruct (dedupe_found p out tol).
    + destruct (IH out) as (kept & -> & Hsub).
      exists kept. split; [reflexivity|]. now constructor.
    + destruct (IH (out ++ [p])) as (kept & -> & Hsub).
      exists (p :: kept). rewrite <- app_assoc. split; [reflexivity|].
      now constructor.
Qed.

Lemma dedupe_loop_far_apart (points out : list Point) (tol : Q) :
  ForallOrdPairs (far_apart tol) out ->
  ForallOrdPairs (far_apart tol) (dedupe_loop points out tol).
Proof.
  revert out. induction points as [|p points IH]; intros out Hout; simpl.
  - assumption.
  - destruct (dedupe_found p out tol) eqn:E.
    + now apply IH.
    + apply IH, ForallOrdPairs_snoc; [assumption|].
      now apply dedupe_found_false.
Qed.

Lemma dedupe_loop_covers (points out : list Point) (tol : Q) :
  0 < tol ->
  forall p, In p points ->
            exists q, In q (dedupe_loop points out tol)
                      /\ sqdist p q < tol * tol.
Proof.
  intros Htol. revert out.
  induction points as [|p0 points IH]; intros out p Hin; simpl in *.
  - contradiction.
  - destruct (dedupe_found p0 out tol) eqn:E.
    + destruct Hin as [<-|Hin]; [|now apply IH].
      apply dedupe_found_true in E. destruct E as (q & Hq & Hd).
      exists q. split; [|assumption].
      destruct (dedupe_loop_kept points out tol) as (kept & -> & _).
      apply in_or_app. now left.
    + destruct Hin as [<-|Hin]; [|now apply IH].
      exists p0. split.
      * destruct (dedupe_loop_kept points (out ++ [p0]) tol) as (kept & -> & _).
        apply in_or_app. left. apply in_or_app. right. now left.
      * rewrite sqdist_self. nra.
Qed.

(** ** [list.sort] *)

Section SortFacts.
Variable A : Type.
Variable key : A -> Q.

Lemma insert_by_key_hd (x y : A) (l : list A) :
  key_le key y x -> HdRel (key_le key) y l ->
  HdRel (key_le key) y (insert_by_key key x l).
Proof.
  intros Hyx Hl. destruct l as [|z l]; simpl.
  - now constructor.
  - destruct (Qltb (key z) (key x)); constructor; [|assumption].
    now inversion Hl.
Qed.

Lemma insert_by_key_sorted (x : A) (l : list A) :
  Sorted (key_le key) l -> Sorted (key_le key) (insert_by_key key x l).
Proof.
  induction 1 as [|y l Hl IH Hy]; simpl.
  - repeat constructor.
  - destruct (Qltb (key y) (key x)) eqn:E.
    + apply Qltb_true in E. constructor; [assumption|].
      apply insert_by_key_hd; [|assumption].
      unfold key_le. now apply Qlt_le_weak.
    + apply Qltb_false in E. constructor; [now constructor|].
      now constructor.
Qed.

Lemma sort_by_key_sorted (l : list A) :
  Sorted (key_le key) (sort_by_key key l).
Proof.
  induction l as [|x l IH]; simpl; [constructor|].
  now apply insert_by_key_sorted.
Qed.

Lemma sort_by_key_strongly_sorted (l : list A) :
  StronglySorted (key_le key) (sort_by_key key l).
Proof.
  apply Sorted_StronglySorted.
  - intros a b c Hab Hbc. unfold key_le in *. now apply Qle_trans with (key b).
  - apply sort_by_key_sorted.
Qed.

Lemma insert_by_key_permutation (x : A) (l : list A) :
  Permutation (x :: l) (insert_by_key key x l).
Proof.
  induction l as [|y l IH]; simpl; [reflexivity|].
  destruct (Qltb (key y) (key x)); [|reflexivity].
  rewrite perm_swap. now constructor.
Qed.

Lemma sort_by_key_permutation (l : list A) :
  Permutation l (sort_by_key key l).
Proof.
  induction l as [|x l IH]; simpl; [constructor|].
  rewrite <- insert_by_key_permutation. now constructor.
Qed.
End SortFacts.

(** ** [visibility_polygon] *)

Section VisibilityFacts.
Variables cos sin : Q -> Q.
Variable atan2 : Q -> Q -> Q.

Lemma visibility_polygon_unfold (guard : Point) (polygon : list Point) :
  exists inters,
    visibility_polygon cos sin atan2 guard polygon =
    Ok (sort_by_key (angle_from atan2 guard)
          (dedupe_points inters lit_1e_5)).
Proof.
  unfold visibility_polygon.
  destruct (for_each_total
              (fun a inters =>
                 p <- cast_ray cos sin guard a polygon ;;
                 match p with
                 | Some p => Ok (inters ++ [p])
                 | None => Ok inters
                 end)
              (visibility_angles atan2 guard polygon)) with (s := @nil Point)
    as [inters Hrun].
  - intros a s. destruct (cast_ray_total cos sin guard a polygon) as [[p|] ->];
      simpl; eauto.
  - rewrite Hrun. simpl. eauto.
Qed.

Lemma visibility_polygon_total (guard : Point) (polygon : list Point) :
  exists vis, visibility_polygon cos sin atan2 guard polygon = Ok vis.
Proof.
  destruct (visibility_polygon_unfold guard polygon) as [inters ->]. eauto.
Qed.

(** ** The main loop *)

Lemma draw_guards_total (polygon gs : list Point) :
  exists drawn, draw_guards cos sin atan2 polygon gs = Ok drawn.
Proof.
  unfold draw_guards. apply for_each_total. intros guard drawn.
  destruct (visibility_polygon_total guard polygon) as [vis ->]. cbn [bind].
  destruct (3 <=? length vis)%nat; eauto.
Qed.

Lemma point_in_polygon_total (point : Point) (poly : list Point) :
  exists b, point_in_polygon point poly = Ok b.
Proof.
  rewrite point_in_polygon_parity. eauto.
Qed.

Lemma handle_click (polygon : list Point) (pos : Point) (st : state) :
  (point_in_polygon pos polygon = Ok true
   /\ handle_event polygon (MOUSEBUTTONDOWN pos) st =
      Ok (mkState (running st) (guards st ++ [pos])))
  \/ (point_in_polygon pos polygon = Ok false
      /\ handle_event polygon (MOUSEBUTTONDOWN pos) st = Ok st).
Proof.
  destruct (point_in_polygon_total pos polygon) as [[|] H];
    [left|right]; (split; [assumption|]); simpl; now rewrite H.
Qed.

Lemma handle_event_inside (polygon : list Point) (ev : event) (st st' : state) :
  guards_inside polygon st ->
  handle_event polygon ev st = Ok st' ->
  guards_inside polygon st'.
Proof.
  intros Hst Hev. destruct ev as [|pos|]; simpl in Hev.
  - injection Hev as <-. exact Hst.
  - destruct (handle_click polygon pos st) as [[Hin H]|[Hin H]];
      simpl in H; rewrite H in Hev; injection Hev as <-.
    + unfold guards_inside. simpl. apply Forall_app. split; [exact Hst|].
      now constructor.
    + exact Hst.
  - injection Hev as <-. exact Hst.
Qed.

Lemma handle_events_inside (polygon : list Point) (events : list event) :
  forall st st',
    guards_inside polygon st ->
    for_each events (handle_event polygon) st = Ok st' ->
    guards_inside polygon st'.
Proof.
  induction events as [|ev events IH]; intros st st' Hst Hrun; simpl in Hrun.
  - injection Hrun as <-. exact Hst.
  - destruct (handle_event polygon ev st) as [st1|e] eqn:Hev;
      simpl in Hrun; [|discriminate].
    apply (IH st1); [|assumption].
    now apply (handle_event_inside polygon ev st).
Qed.

Lemma frame_inside (events : list event) (st st' : state) :
  guards_inside polygon_points st ->
  frame cos sin atan2 events st = Ok st' ->
  guards_inside polygon_points st'.
Proof.
  intros Hst Hframe. unfold frame in Hframe.
  destruct (draw_guards_total polygon_points (guards st)) as [drawn Hd].
  rewrite Hd in Hframe. simpl in Hframe.
  now apply (handle_events_inside polygon_points events st).
Qed.

Lemma reachable_inside (st : state) :
  reachable cos sin atan2 st -> guards_inside polygon_points st.
Proof.
  induction 1 as [|st st' Hreach IH Hstep].
  - constructor.
  - destruct Hstep as [st st' events Hrun Hframe].
    now apply (frame_inside events st).
Qed.
End VisibilityFacts.

(** * The claims *)

(** C1.  [cast_ray] tests every edge [(polygon[j], polygon[(j + 1) % n])]
    against the segment from the guard to
    [guard + 1200 * (cos angle, sin angle)], 1200 being [RAY_LENGTH].  A hit
    [(t, u, ip)] of [segment_ray_intersection] is accepted when [t > 1e-8]
    and [-1e-8 <= u <= 1 + 1e-8].  Either no edge yields an accepted hit and
    the result is [None], or the result is the intersection point of an
    accepted hit whose [t] is at most the [t] of every accepted hit.  The
    call never raises. *)
Theorem cast_ray_nearest_accepted_hit
  (cos sin : Q -> Q) (guard : Point) (angle : Q) (polygon : list Point) :
  (cast_ray cos sin guard angle polygon = Ok None
   /\ forall j t u ip,
        (j < length polygon)%nat ->
        segment_ray_intersection guard
          (fst guard + 1200 * cos angle, snd guard + 1200 * sin angle)
          (nth j polygon (0, 0))
          (nth ((j + 1) mod length polygon) polygon (0, 0))
        = Ok (Some (t, u, ip)) ->
        ~ ((1 # 100000000) < t
           /\ - (1 # 100000000) <= u /\ u <= 1 + (1 # 100000000)))
  \/ (exists i t u ip,
        cast_ray cos sin guard angle polygon = Ok (Some ip)
        /\ (i < length polygon)%nat
        /\ segment_ray_intersection guard
             (fst guard + 1200 * cos angle, snd guard + 1200 * sin angle)
             (nth i polygon (0, 0))
             (nth ((i + 1) mod length polygon) polygon (0, 0))
           = Ok (Some (t, u, ip))
        /\ (1 # 100000000) < t
        /\ - (1 # 100000000) <= u /\ u <= 1 + (1 # 100000000)
        /\ forall j t' u' ip',
             (j < length polygon)%nat ->
             segment_ray_intersection guard
               (fst guard + 1200 * cos angle, snd guard + 1200 * sin angle)
               (nth j polygon (0, 0))
               (nth ((j + 1) mod length polygon) polygon (0, 0))
             = Ok (Some (t', u', ip')) ->
             (1 # 100000000) < t'
             /\ - (1 # 100000000) <= u' /\ u' <= 1 + (1 # 100000000) ->
             t <= t').
Proof.
  change (fst guard + 1200 * cos angle, snd guard + 1200 * sin angle)
    with (ray_end_of cos sin guard angle).
  assert (Hhit : forall j t u ip,
            (j < length polygon)%nat ->
            segment_ray_intersection guard (ray_end_of cos sin guard angle)
              (nth j polygon (0, 0))
              (nth ((j + 1) mod length polygon) polygon (0, 0))
            = Ok (Some (t, u, ip)) ->
            (1 # 100000000) < t
            /\ - (1 # 100000000) <= u /\ u <= 1 + (1 # 100000000) ->
            accepted_hit guard (ray_end_of cos sin guard angle) polygon j
              (t, u, ip)).
  { intros j t u ip Hj Hsri Hacc. repeat split; try assumption.
    now apply accepted_true_iff. }
  unfold cast_ray.
  destruct (cast_ray_loop guard (ray_end_of cos sin guard angle) polygon)
    as (st & -> & Hinv).
  cbn [bind]. destruct st as [[t|] [ip|]]; simpl in Hinv; try contradiction.
  - right. destruct Hinv as [(i & u & _ & Hi & Hsri & Hacc) Hmin].
    exists i, t, u, ip. split; [reflexivity|]. split; [exact Hi|].
    split; [exact Hsri|]. cbn [fst snd] in Hacc.
    apply accepted_true_iff in Hacc. destruct Hacc as (Ht & Hu1 & Hu2).
    split; [exact Ht|]. split; [exact Hu1|]. split; [exact Hu2|].
    intros j t' u' ip' Hj Hsri' Hacc'.
    exact (Hmin j (t', u', ip') Hj (Hhit j t' u' ip' Hj Hsri' Hacc')).
  - left. split; [reflexivity|].
    intros j t u ip Hj Hsri Hacc.
    exact (Hinv j (t, u, ip) Hj (Hhit j t u ip Hj Hsri Hacc)).
Qed.

(** C2.  The code departs from the even-odd rule of the claim, and from
    its own docstring, on the thin triangle [(0, 0)], [(10, 1e-10)],
    [(0, 1)] and the point [(1, 5e-11)], with [EPS] being [1e-9].  The
    point lies strictly to the left of each of the three directed edges, so
    strictly inside the triangle, and exactly one edge both straddles its
    horizontal line and crosses it to its right (at [x = 5]): the count is
    odd.  [point_in_polygon] nevertheless returns [False], because on that
    edge [|yj - yi| = 1e-10 <= EPS] and the quotient is taken with [EPS],
    which puts the compared abscissa at [0.5]. *)
Theorem point_in_polygon_misses_inside_point :
  EPS = 1 # 1000000000
  /\ Forall (fun e => 0 < cross_product (fst e) (snd e) (fst e) thin_probe)
       (edges thin_triangle)
  /\ filter (crosses_right thin_probe) (edges thin_triangle)
     = [((0, 0), (10, 1 # 10000000000))]
  /\ crossing_x (snd thin_probe) ((0, 0), (10, 1 # 10000000000)) == 5
  /\ guarded_crossing_x (snd thin_probe) ((0, 0), (10, 1 # 10000000000))
     == 1 # 2
  /\ Nat.odd (count (crosses_right thin_probe) (edges thin_triangle)) = true
  /\ point_in_polygon thin_probe thin_triangle = Ok false.
Proof.
  split; [reflexivity|]. split.
  - repeat (constructor; [now vm_compute|]). constructor.
  - repeat split; now vm_compute.
Qed.

(** C3.  Handling a click never raises; the candidate is appended to the
    guards list exactly when [point_in_polygon] answers [True], and the
    state is left as it was exactly when it answers [False]. *)
Theorem click_appends_iff_inside
  (polygon : list Point) (pos : Point) (st : state) :
  exists st',
    handle_event polygon (MOUSEBUTTONDOWN pos) st = Ok st'
    /\ (guards st' = guards st ++ [pos] <->
        point_in_polygon pos polygon = Ok true)
    /\ (st' = st <-> point_in_polygon pos polygon = Ok false)
    /\ (guards st' = guards st <-> point_in_polygon pos polygon = Ok false).
Proof.
  assert (Hne : forall l : list Point, l ++ [pos] <> l).
  { intros l E. apply (f_equal (@length Point)) in E.
    rewrite length_app in E. simpl in E. lia. }
  destruct (handle_click polygon pos st) as [[Hin ->]|[Hin ->]];
    eexists; (split; [reflexivity|]); rewrite Hin; simpl.
  - repeat split; intros H; try reflexivity; try discriminate.
    + apply (f_equal guards) in H. simpl in H. now apply Hne in H.
    + now apply Hne in H.
  - repeat split; intros H; try reflexivity; try discriminate.
    symmetry in H. now apply Hne in H.
Qed.

(** C4.  [visibility_polygon] never raises and its result is sorted by the
    angle [atan2(p.y - guard.y, p.x - guard.x)]: the angle of each output
    point is at most the angle of every later one. *)
Theorem visibility_polygon_sorted
  (cos sin : Q -> Q) (atan2 : Q -> Q -> Q) (guard : Point)
  (polygon : list Point) :
  exists vis,
    visibility_polygon cos sin atan2 guard polygon = Ok vis
    /\ StronglySorted
         (fun p q =>
            atan2 (snd p - snd guard) (fst p - fst guard)
            <= atan2 (snd q - snd guard) (fst q - fst guard))
         vis.
Proof.
  destruct (visibility_polygon_unfold cos sin atan2 guard polygon)
    as [inters ->].
  eexists. split; [reflexivity|].
  apply (sort_by_key_strongly_sorted Point (angle_from atan2 guard)).
Qed.

(** C5.  When [|cross_product(p1, p2, p3, p4)| >= EPS] the function returns
    [(t, u, (ix, iy))] with [t] and [u] the two cross-product ratios,
    [(ix, iy) = p1 + t * (p2 - p1)] and
    [p1 + t * (p2 - p1) = p3 + u * (p4 - p3)]. *)
Theorem segment_ray_intersection_solves (p1 p2 p3 p4 : Point) :
  EPS <= Qabs (cross_product p1 p2 p3 p4) ->
  exists t u ix iy,
    segment_ray_intersection p1 p2 p3 p4 = Ok (Some (t, u, (ix, iy)))
    /\ t == cross_product p1 p3 p3 p4 / cross_product p1 p2 p3 p4
    /\ u == cross_product p1 p3 p1 p2 / cross_product p1 p2 p3 p4
    /\ ix == fst p1 + t * (fst p2 - fst p1)
    /\ iy == snd p1 + t * (snd p2 - snd p1)
    /\ fst p1 + t * (fst p2 - fst p1) == fst p3 + u * (fst p4 - fst p3)
    /\ snd p1 + t * (snd p2 - snd p1) == snd p3 + u * (snd p4 - snd p3).
Proof.
  intros H. pose proof (Qabs_ge_nonzero _ _ EPS_pos H) as Hden.
  do 4 eexists. split; [apply (segment_ray_intersection_hit _ _ _ _ H)|].
  repeat split; try reflexivity.
  - destruct p1 as [x1 y1], p2 as [x2 y2], p3 as [x3 y3], p4 as [x4 y4].
    unfold cross_product in *. simpl. field. exact Hden.
  - destruct p1 as [x1 y1], p2 as [x2 y2], p3 as [x3 y3], p4 as [x4 y4].
    unfold cross_product in *. simpl. field. exact Hden.
Qed.

Lemma segment_ray_intersection_solves_witness :
  EPS <= Qabs (cross_product (0, 0) (2, 2) (0, 2) (2, 0))
  /\ exists t u ix iy,
       segment_ray_intersection (0, 0) (2, 2) (0, 2) (2, 0) =
       Ok (Some (t, u, (ix, iy)))
       /\ t == cross_product (0, 0) (0, 2) (0, 2) (2, 0)
               / cross_product (0, 0) (2, 2) (0, 2) (2, 0)
       /\ u == cross_product (0, 0) (0, 2) (0, 0) (2, 2)
               / cross_product (0, 0) (2, 2) (0, 2) (2, 0)
       /\ ix == fst (0, 0) + t * (fst (2, 2) - fst (0, 0))
       /\ iy == snd (0, 0) + t * (snd (2, 2) - snd (0, 0))
       /\ fst (0, 0) + t * (fst (2, 2) - fst (0, 0))
          == fst (0, 2) + u * (fst (2, 0) - fst (0, 2))
       /\ snd (0, 0) + t * (snd (2, 2) - snd (0, 0))
          == snd (0, 2) + u * (snd (2, 0) - snd (0, 2)).
Proof.
  split.
  - vm_compute. discriminate.
  - apply (segment_ray_intersection_solves (0, 0) (2, 2) (0, 2) (2, 0)).
    vm_compute. discriminate.
Defined.

(** C6.  [segment_ray_intersection] never raises, and it returns [None]
    exactly when [|cross_product(p1, p2, p3, p4)| < EPS]. *)
Theorem segment_ray_intersection_none_iff (p1 p2 p3 p4 : Point) :
  (exists r, segment_ray_intersection p1 p2 p3 p4 = Ok r)
  /\ (segment_ray_intersection p1 p2 p3 p4 = Ok None <->
      Qabs (cross_product p1 p2 p3 p4) < EPS).
Proof.
  split; [apply segment_ray_intersection_total|].
  destruct (segment_ray_intersection_cases p1 p2 p3 p4)
    as [[Hlt ->]|[Hge [h ->]]].
  - split; [now intros _|reflexivity].
  - split; [discriminate|].
    intros Hlt. exfalso. exact (Qle_not_lt _ _ Hge Hlt).
Qed.

(** C7.  For a positive tolerance, the result of [dedupe_points] is a
    subsequence of the input; any two points at different positions of the
    result are at squared distance at least [tol * tol]; and every input
    point, so every dropped one, is at squared distance less than
    [tol * tol] from some point of the result. *)
Theorem dedupe_points_spec (points : list Point) (tol : Q) :
  0 < tol ->
  subsequence (dedupe_points points tol) points
  /\ ForallOrdPairs
       (fun a b => tol * tol <= sqdist a b /\ tol * tol <= sqdist b a)
       (dedupe_points points tol)
  /\ forall p, In p points ->
               exists q, In q (dedupe_points points tol)
                         /\ sqdist p q < tol * tol.
Proof.
  intros Htol. unfold dedupe_points. repeat split.
  - destruct (dedupe_loop_kept points [] tol) as (kept & -> & Hsub).
    exact Hsub.
  - assert (H : ForallOrdPairs (far_apart tol) (dedupe_loop points [] tol))
      by (apply dedupe_loop_far_apart; constructor).
    induction H as [|a l Ha Hl IH]; constructor; [|exact IH].
    eapply Forall_impl; [|exact Ha].
    intros b Hb. unfold far_apart in Hb. split; [|exact Hb].
    now rewrite sqdist_sym.
  - now apply dedupe_loop_covers.
Qed.

Lemma dedupe_points_spec_witness :
  0 < 1
  /\ subsequence
       (dedupe_points [(0, 0); (1, 0); (0, 0); (1 # 2, 0); (3, 3)] 1)
       [(0, 0); (1, 0); (0, 0); (1 # 2, 0); (3, 3)]
  /\ ForallOrdPairs
       (fun a b => 1 * 1 <= sqdist a b /\ 1 * 1 <= sqdist b a)
       (dedupe_points [(0, 0); (1, 0); (0, 0); (1 # 2, 0); (3, 3)] 1)
  /\ forall p, In p [(0, 0); (1, 0); (0, 0); (1 # 2, 0); (3, 3)] ->
               exists q,
                 In q (dedupe_points
                         [(0, 0); (1, 0); (0, 0); (1 # 2, 0); (3, 3)] 1)
                 /\ sqdist p q < 1 * 1.
Proof.
  split.
  - reflexivity.
  - apply (dedupe_points_spec [(0, 0); (1, 0); (0, 0); (1 # 2, 0); (3, 3)] 1).
    reflexivity.
Defined.

(** C8.  In every state the main loop can reach from the initial one, with
    its empty guards list, each stored guard satisfies
    [point_in_polygon(guard, polygon_points) = True]. *)
Theorem reachable_guards_inside
  (cos sin : Q -> Q) (atan2 : Q -> Q -> Q) (st : state) :
  reachable cos sin atan2 st ->
  Forall (fun g => point_in_polygon g polygon_points = Ok true) (guards st).
Proof.
  intros H. exact (reachable_inside cos sin atan2 st H).
Qed.

Lemma reachable_guards_inside_witness :
  reachable (fun _ => 1) (fun _ => 0) (fun y _ => y)
    (mkState false [(200, 200)])
  /\ Forall (fun g => point_in_polygon g polygon_points = Ok true)
       (guards (mkState false [(200, 200)])).
Proof.
  assert (H : reachable (fun _ => 1) (fun _ => 0) (fun y _ => y)
                (mkState false [(200, 200)])).
  { apply reachable_step with initial_state; [apply reachable_init|].
    apply step_frame
      with (events := [MOUSEBUTTONDOWN (10, 10); OtherEvent;
                       MOUSEBUTTONDOWN (200, 200); QUIT]).
    - reflexivity.
    - vm_compute. reflexivity. }
  split; [exact H|].
  exact (reachable_guards_inside (fun _ => 1) (fun _ => 0) (fun y _ => y)
           (mkState false [(200, 200)]) H).
Defined.

(** C9.  Neither [point_in_polygon] nor [segment_ray_intersection] raises:
    the divisor used by [point_in_polygon] is never zero, being [EPS] itself
    whenever [|yj - yi| <= EPS], and [segment_ray_intersection] divides by
    [den] only when [|den| >= EPS]. *)
Theorem no_zero_division (point : Point) (poly : list Point)
  (p1 p2 p3 p4 : Point) :
  (exists b, point_in_polygon point poly = Ok b)
  /\ (exists r, segment_ray_intersection p1 p2 p3 p4 = Ok r)
  /\ (forall yi yj,
        ~ guarded_delta yi yj == 0
        /\ (Qabs (yj - yi) <= EPS -> guarded_delta yi yj = EPS))
  /\ (forall h,
        segment_ray_intersection p1 p2 p3 p4 = Ok (Some h) ->
        EPS <= Qabs (cross_product p1 p2 p3 p4)
        /\ ~ cross_product p1 p2 p3 p4 == 0).
Proof.
  split; [|split; [|split]].
  - rewrite point_in_polygon_parity. eauto.
  - apply segment_ray_intersection_total.
  - intros yi yj. split.
    + apply guarded_delta_nonzero.
    + apply guarded_delta_near_horizontal.
  - intros h Hh.
    destruct (segment_ray_intersection_cases p1 p2 p3 p4)
      as [[_ Hnone]|[Hge _]].
    + rewrite Hnone in Hh. discriminate.
    + split; [assumption|]. exact (Qabs_ge_nonzero _ _ EPS_pos Hge).
Qed.

(** C10.  Against a polygon with fewer than two vertices
    [point_in_polygon] returns [False] without raising, so a click never
    adds a guard. *)
Theorem point_in_polygon_degenerate_false
  (point : Point) (poly : list Point) (st : state) :
  (length poly < 2)%nat ->
  point_in_polygon point poly = Ok false
  /\ handle_event poly (MOUSEBUTTONDOWN point) st = Ok st.
Proof.
  intros Hlen.
  pose proof (point_in_polygon_degenerate point poly Hlen) as H.
  split; [exact H|]. simpl. now rewrite H.
Qed.

Lemma point_in_polygon_degenerate_false_witness :
  (length [(3, 4)%Q] < 2)%nat
  /\ point_in_polygon (3, 5) [(3, 4)] = Ok false
  /\ handle_event [(3, 4)] (MOUSEBUTTONDOWN (3, 5)) initial_state =
     Ok initial_state.
Proof.
  split.
  - simpl. lia.
  - apply (point_in_polygon_degenerate_false (3, 5) [(3, 4)] initial_state).
    simpl. lia.
Defined.

(** * Further properties of the code *)

(** ** [cross_product] and [segment_ray_intersection] *)


Lemma segment_ray_intersection_point_edge (p1 p2 p3 p4 : Point) :
  fst p4 - fst p3 == 0 /\ snd p4 - snd p3 == 0 ->
  segment_ray_intersection p1 p2 p3 p4 = Ok None.
Proof.
  intros [Hx Hy]. apply segment_ray_intersection_parallel.
  assert (E : cross_product p1 p2 p3 p4 == 0).
  { destruct p1 as [x1 y1], p2 as [x2 y2], p3 as [x3 y3], p4 as [x4 y4].
    unfold cross_product. simpl in Hx, Hy. rewrite Hx, Hy. ring. }
  rewrite E. reflexivity.
Qed.



(** ** [cast_ray] *)

Lemma cast_ray_some (cos sin : Q -> Q) (guard : Point) (angle : Q)
  (polygon : list Point) (ip : Point) :
  cast_ray cos sin guard angle polygon = Ok (Some ip) ->
  exists i t u,
    accepted_hit guard (ray_end_of cos sin guard angle) polygon i (t, u, ip).
Proof.
  unfold cast_ray.
  destruct (cast_ray_loop guard (ray_end_of cos sin guard angle) polygon)
    as (st & -> & Hinv).
  cbn [bind]. intros E. injection E as E.
  destruct st as [[t|] [ip0|]]; simpl in *; try contradiction;
    try discriminate.
  injection E as ->. destruct Hinv as [(i & u & _ & Hhit) _].
  now exists i, t, u.
Qed.

Lemma cast_ray_none (cos sin : Q -> Q) (guard : Point) (angle : Q)
  (polygon : list Point) :
  (forall i h,
     ~ accepted_hit guard (ray_end_of cos sin guard angle) polygon i h) ->
  cast_ray cos sin guard angle polygon = Ok None.
Proof.
  intros Hno.
  destruct (cast_ray_total cos sin guard angle polygon) as [[ip|] H];
    [|exact H].
  destruct (cast_ray_some _ _ _ _ _ _ H) as (i & t & u & Hhit).
  now destruct (Hno i (t, u, ip)).
Qed.




(** ** [visibility_polygon] *)

Lemma subsequence_In {A : Type} (l1 l2 : list A) (a : A) :
  subsequence l1 l2 -> In a l1 -> In a l2.
Proof.
  induction 1 as [|b l1 l2 _ IH|b l1 l2 _ IH]; simpl; intros Hin.
  - contradiction.
  - destruct Hin as [->|Hin]; [now left|right; now apply IH].
  - right. now apply IH.
Qed.

Lemma subsequence_length {A : Type} (l1 l2 : list A) :
  subsequence l1 l2 -> (length l1 <= length l2)%nat.
Proof.
  induction 1; simpl; lia.
Qed.

Lemma dedupe_points_subsequence (points : list Point) (tol : Q) :
  subsequence (dedupe_points points tol) points.
Proof.
  unfold dedupe_points.
  now destruct (dedupe_loop_kept points [] tol) as (kept & -> & Hsub).
Qed.

Lemma ForallOrdPairs_Permutation {A : Type} (R : A -> A -> Prop)
  (l l' : list A) :
  (forall a b, R a b -> R b a) ->
  Permutation l l' -> ForallOrdPairs R l -> ForallOrdPairs R l'.
Proof.
  intros Hsym. induction 1 as [|x l l' Hp IH|x y l|l l' l'' _ IH1 _ IH2];
    intros H.
  - exact H.
  - inversion H; subst. constructor; [|now apply IH].
    now apply (Permutation_Forall Hp).
  - inversion H as [|? ? Hy Hxl]; subst.
    inversion Hxl as [|? ? Hx Hl]; subst.
    inversion Hy as [|? ? Hyx Hyl]; subst.
    constructor; [|now constructor].
    constructor; [now apply Hsym|assumption].
  - now apply IH2, IH1.
Qed.

Lemma fold_left_app_flat_map {A B : Type} (f : A -> list B) (l : list A) :
  forall acc,
    fold_left (fun acc v => acc ++ f v) l acc = acc ++ flat_map f l.
Proof.
  induction l as [|v l IH]; intros acc; simpl.
  - now rewrite app_nil_r.
  - rewrite IH, <- app_assoc. reflexivity.
Qed.

Lemma visibility_angles_flat_map (atan2 : Q -> Q -> Q) (guard : Point)
  (polygon : list Point) :
  visibility_angles atan2 guard polygon =
  flat_map
    (fun v => [angle_from atan2 guard v - lit_1e_7;
               angle_from atan2 guard v;
               angle_from atan2 guard v + lit_1e_7])
    polygon.
Proof.
  unfold visibility_angles.
  apply (fold_left_app_flat_map
           (fun v => [angle_from atan2 guard v - lit_1e_7;
                      angle_from atan2 guard v;
                      angle_from atan2 guard v + lit_1e_7])
           polygon []).
Qed.

Lemma visibility_angles_length (atan2 : Q -> Q -> Q) (guard : Point)
  (polygon : list Point) :
  length (visibility_angles atan2 guard polygon) = (3 * length polygon)%nat.
Proof.
  rewrite visibility_angles_flat_map.
  induction polygon as [|v polygon IH]; simpl; [reflexivity|]. lia.
Qed.

Section VisibilityStructure.
Variables cos sin : Q -> Q.
Variable atan2 : Q -> Q -> Q.

Lemma collect_hits (guard : Point) (polygon : list Point) (angles : list Q) :
  forall acc,
  exists inters,
    for_each angles
      (fun a inters =>
         p <- cast_ray cos sin guard a polygon ;;
         match p with
         | Some p => Ok (inters ++ [p])
         | None => Ok inters
         end) acc = Ok (acc ++ inters)
    /\ (length inters <= length angles)%nat
    /\ forall p, In p inters ->
                 exists a, In a angles
                           /\ cast_ray cos sin guard a polygon = Ok (Some p).
Proof.
  induction angles as [|a angles IH]; intros acc; simpl.
  - exists []. rewrite app_nil_r.
    split; [reflexivity|]. split; [simpl; lia|]. intros p [].
  - destruct (cast_ray_total cos sin guard a polygon) as [[p|] Hcast];
      rewrite Hcast; cbn [bind].
    + destruct (IH (acc ++ [p])) as (inters & -> & Hlen & Hin).
      exists (p :: inters). rewrite <- app_assoc.
      split; [reflexivity|]. split; [simpl; lia|].
      intros q [<-|Hq]; [exists a; auto|].
      destruct (Hin q Hq) as (a' & Ha' & Hc). exists a'. auto.
    + destruct (IH acc) as (inters & -> & Hlen & Hin).
      exists inters.
      split; [reflexivity|]. split; [lia|].
      intros q Hq. destruct (Hin q Hq) as (a' & Ha' & Hc). exists a'. auto.
Qed.

Lemma visibility_polygon_structure (guard : Point) (polygon : list Point) :
  exists inters,
    visibility_polygon cos sin atan2 guard polygon =
    Ok (sort_by_key (angle_from atan2 guard) (dedupe_points inters lit_1e_5))
    /\ (length inters <= 3 * length polygon)%nat
    /\ forall p, In p inters ->
                 exists a, In a (visibility_angles atan2 guard polygon)
                           /\ cast_ray cos sin guard a polygon = Ok (Some p).
Proof.
  destruct (collect_hits guard polygon
              (visibility_angles atan2 guard polygon) [])
    as (inters & Hrun & Hlen & Hin).
  exists inters. unfold visibility_polygon. rewrite Hrun. cbn [bind app].
  rewrite visibility_angles_length in Hlen. auto.
Qed.

Lemma visibility_polygon_members (guard : Point) (polygon : list Point) :
  exists vis,
    visibility_polygon cos sin atan2 guard polygon = Ok vis
    /\ (length vis <= 3 * length polygon)%nat
    /\ ForallOrdPairs
         (fun a b => lit_1e_5 * lit_1e_5 <= sqdist a b
                     /\ lit_1e_5 * lit_1e_5 <= sqdist b a) vis
    /\ forall p, In p vis ->
                 exists a, In a (visibility_angles atan2 guard polygon)
                           /\ cast_ray cos sin guard a polygon = Ok (Some p).
Proof.
  destruct (visibility_polygon_structure guard polygon)
    as (inters & -> & Hlen & Hin).
  eexists. split; [reflexivity|].
  pose proof (sort_by_key_permutation _ (angle_from atan2 guard)
                (dedupe_points inters lit_1e_5)) as Hperm.
  pose proof (dedupe_points_subsequence inters lit_1e_5) as Hsub.
  split; [|split].
  - rewrite <- (Permutation_length Hperm).
    apply subsequence_length in Hsub. lia.
  - apply (ForallOrdPairs_Permutation _ _ _ (fun a b H => conj (proj2 H) (proj1 H))
             Hperm).
    assert (H : ForallOrdPairs (far_apart lit_1e_5)
                  (dedupe_loop inters [] lit_1e_5))
      by (apply dedupe_loop_far_apart; constructor).
    unfold dedupe_points.
    induction H as [|a l Ha Hl IH]; constructor; [|exact IH].
    eapply Forall_impl; [|exact Ha].
    intros b Hb. unfold far_apart in Hb. split; [|exact Hb].
    now rewrite sqdist_sym.
  - intros p Hp. apply Hin. apply (subsequence_In _ _ _ Hsub).
    apply (Permutation_in _ (Permutation_sym Hperm) Hp).
Qed.
End VisibilityStructure.

(** X4.  [visibility_polygon] returns at most three points per polygon
    vertex. *)
Theorem visibility_polygon_length
  (cos sin : Q -> Q) (atan2 : Q -> Q -> Q) (guard : Point)
  (polygon : list Point) :
  exists vis,
    visibility_polygon cos sin atan2 guard polygon = Ok vis
    /\ (length vis <= 3 * length polygon)%nat.
Proof.
  destruct (visibility_polygon_members cos sin atan2 guard polygon)
    as (vis & Hrun & Hlen & _).
  exists vis. auto.
Qed.

(** X5.  Any two points at different positions of the result of
    [visibility_polygon] are at squared distance at least [1e-5 * 1e-5]:
    the sort keeps what the deduplication established. *)
Theorem visibility_polygon_separated
  (cos sin : Q -> Q) (atan2 : Q -> Q -> Q) (guard : Point)
  (polygon : list Point) :
  exists vis,
    visibility_polygon cos sin atan2 guard polygon = Ok vis
    /\ ForallOrdPairs
         (fun a b => lit_1e_5 * lit_1e_5 <= sqdist a b
                     /\ lit_1e_5 * lit_1e_5 <= sqdist b a) vis.
Proof.
  destruct (visibility_polygon_members cos sin atan2 guard polygon)
    as (vis & Hrun & _ & Hsep & _).
  exists vis. auto.
Qed.

(** X6.  Every point of the result of [visibility_polygon] is what
    [cast_ray] returns for a ray aimed at a polygon vertex, or [1e-7]
    to either side of it. *)
Theorem visibility_polygon_points_are_hits
  (cos sin : Q -> Q) (atan2 : Q -> Q -> Q) (guard : Point)
  (polygon : list Point) :
  exists vis,
    visibility_polygon cos sin atan2 guard polygon = Ok vis
    /\ forall p, In p vis ->
         exists v a,
           In v polygon
           /\ (a = atan2 (snd v - snd guard) (fst v - fst guard) - lit_1e_7
               \/ a = atan2 (snd v - snd guard) (fst v - fst guard)
               \/ a = atan2 (snd v - snd guard) (fst v - fst guard) + lit_1e_7)
           /\ cast_ray cos sin guard a polygon = Ok (Some p).
Proof.
  destruct (visibility_polygon_members cos sin atan2 guard polygon)
    as (vis & Hrun & _ & _ & Hin).
  exists vis. split; [exact Hrun|].
  intros p Hp. destruct (Hin p Hp) as (a & Ha & Hcast).
  rewrite visibility_angles_flat_map in Ha. apply in_flat_map in Ha.
  destruct Ha as (v & Hv & Ha). exists v, a. unfold angle_from in Ha.
  split; [exact Hv|]. split; [|exact Hcast].
  simpl in Ha. intuition auto.
Qed.

Lemma degenerate_edge_no_hit (guard ray_end : Point) (polygon : list Point)
  (i : nat) (h : Hit) :
  (length polygon < 2)%nat -> ~ accepted_hit guard ray_end polygon i h.
Proof.
  intros Hlen (Hi & Hsri & _).
  destruct polygon as [|v [|w polygon]]; simpl in Hlen, Hi; try lia.
  assert (i = 0)%nat as -> by lia.
  change (edge [v] 0) with (v, v) in Hsri. cbn [fst snd] in Hsri.
  rewrite (segment_ray_intersection_point_edge guard ray_end v v) in Hsri;
    [discriminate|].
  destruct v as [x y]. simpl. split; ring.
Qed.

(** X7.  Against a polygon with fewer than two vertices no ray hits
    anything: [cast_ray] returns [None] for every angle and
    [visibility_polygon] returns the empty list, without raising. *)
Theorem visibility_polygon_degenerate
  (cos sin : Q -> Q) (atan2 : Q -> Q -> Q) (guard : Point)
  (polygon : list Point) :
  (length polygon < 2)%nat ->
  (forall angle, cast_ray cos sin guard angle polygon = Ok None)
  /\ visibility_polygon cos sin atan2 guard polygon = Ok [].
Proof.
  intros Hlen.
  assert (Hnone : forall angle, cast_ray cos sin guard angle polygon = Ok None).
  { intros angle. apply cast_ray_none. intros i h.
    now apply degenerate_edge_no_hit. }
  split; [exact Hnone|].
  destruct (visibility_polygon_structure cos sin atan2 guard polygon)
    as (inters & -> & _ & Hin).
  destruct inters as [|p inters]; [reflexivity|].
  destruct (Hin p (or_introl eq_refl)) as (a & _ & Hcast).
  rewrite Hnone in Hcast. discriminate.
Qed.

Lemma visibility_polygon_degenerate_witness :
  (length [(3, 4)%Q] < 2)%nat
  /\ (forall angle,
        cast_ray (fun _ => 1) (fun _ => 0) (5, 5) angle [(3, 4)] = Ok None)
  /\ visibility_polygon (fun _ => 1) (fun _ => 0) (fun y _ => y) (5, 5)
       [(3, 4)] = Ok [].
Proof.
  split.
  - simpl. lia.
  - apply (visibility_polygon_degenerate (fun _ => 1) (fun _ => 0)
             (fun y _ => y) (5, 5) [(3, 4)]).
    simpl. lia.
Defined.

(** ** [dedupe_points] *)

Lemma sqdist_nonneg (p q : Point) : 0 <= sqdist p q.
Proof.
  unfold sqdist.
  set (a := fst p - fst q). set (b := snd p - snd q).
  change (0 <= a * a + b * b). nra.
Qed.

Lemma dedupe_found_far (p : Point) (out : list Point) (tol : Q) :
  Forall (fun q => tol * tol <= sqdist p q) out ->
  dedupe_found p out tol = false.
Proof.
  intros Hfar. destruct (dedupe_found p out tol) eqn:E; [|reflexivity].
  apply dedupe_found_true in E. destruct E as (q & Hq & Hd).
  rewrite Forall_forall in Hfar.
  exfalso. exact (Qle_not_lt _ _ (Hfar q Hq) Hd).
Qed.

Lemma ForallOrdPairs_before {A : Type} (R : A -> A -> Prop)
  (l1 l2 : list A) (a : A) :
  ForallOrdPairs R (l1 ++ a :: l2) -> Forall (fun b => R b a) l1.
Proof.
  induction l1 as [|b l1 IH]; simpl; intros H; [constructor|].
  inversion H as [|? ? Hb Hl]; subst. constructor.
  - rewrite Forall_forall in Hb. apply Hb, in_or_app. right. now left.
  - now apply IH.
Qed.

Lemma dedupe_loop_fixed (points : list Point) (tol : Q) :
  forall out,
    ForallOrdPairs (far_apart tol) (out ++ points) ->
    dedupe_loop points out tol = out ++ points.
Proof.
  induction points as [|p points IH]; intros out H; simpl.
  - now rewrite app_nil_r.
  - rewrite dedupe_found_far.
    + rewrite IH; rewrite <- app_assoc; [reflexivity|exact H].
    + exact (ForallOrdPairs_before _ _ _ _ H).
Qed.

(** X8.  [dedupe_points] is idempotent: a second pass with the same
    tolerance drops nothing. *)
Theorem dedupe_points_idempotent (points : list Point) (tol : Q) :
  dedupe_points (dedupe_points points tol) tol = dedupe_points points tol.
Proof.
  unfold dedupe_points at 1.
  apply (dedupe_loop_fixed (dedupe_points points tol) tol []).
  apply dedupe_loop_far_apart. constructor.
Qed.

Lemma dedupe_loop_zero (points : list Point) (tol : Q) :
  tol == 0 -> forall out, dedupe_loop points out tol = out ++ points.
Proof.
  intros Htol. induction points as [|p points IH]; intros out; simpl.
  - now rewrite app_nil_r.
  - rewrite dedupe_found_far.
    + rewrite IH, <- app_assoc. reflexivity.
    + apply Forall_forall. intros q _. rewrite Htol.
      setoid_replace (0 * 0) with 0 by ring. apply sqdist_nonneg.
Qed.

(** X9.  With a tolerance of zero nothing is merged, not even exact
    duplicates: the input is returned as it is. *)
Theorem dedupe_points_zero_tolerance (points : list Point) (tol : Q) :
  tol == 0 -> dedupe_points points tol = points.
Proof.
  intros Htol. unfold dedupe_points. now rewrite dedupe_loop_zero.
Qed.

Lemma dedupe_points_zero_tolerance_witness :
  0 == 0
  /\ dedupe_points [(1, 2); (1, 2); (3, 4)] 0 = [(1, 2); (1, 2); (3, 4)].
Proof.
  split.
  - reflexivity.
  - apply (dedupe_points_zero_tolerance [(1, 2); (1, 2); (3, 4)] 0).
    reflexivity.
Defined.

(** X10.  The result of [dedupe_points] is never longer than the input, is
    empty only for the empty input, and starts with the first input
    point. *)
Theorem dedupe_points_keeps_first (points : list Point) (tol : Q) :
  (length (dedupe_points points tol) <= length points)%nat
  /\ (dedupe_points points tol = [] <-> points = [])
  /\ forall p rest,
       points = p :: rest ->
       exists kept, dedupe_points points tol = p :: kept.
Proof.
  assert (Hfirst : forall p rest,
             exists kept, dedupe_points (p :: rest) tol = p :: kept).
  { intros p rest. unfold dedupe_points. simpl.
    destruct (dedupe_loop_kept rest [p] tol) as (kept & -> & _).
    now exists kept. }
  split; [|split].
  - apply subsequence_length, dedupe_points_subsequence.
  - split.
    + destruct points as [|p rest]; [reflexivity|].
      destruct (Hfirst p rest) as [kept ->]. discriminate.
    + intros ->. reflexivity.
  - intros p rest ->. apply Hfirst.
Qed.

(** ** [point_in_polygon] *)

(** Linear arithmetic on lengths of lists of points. *)
Ltac length_lia := unfold Point in *; cbn [length] in *; lia.

Lemma combine_snoc {A B : Type} (l : list A) (l' : list B) (a : A) (b : B) :
  length l = length l' ->
  combine (l ++ [a]) (l' ++ [b]) = combine l l' ++ [(a, b)].
Proof.
  revert l'. induction l as [|x l IH]; intros [|y l'] Hlen;
    simpl in *; try discriminate; [reflexivity|].
  f_equal. apply IH. lia.
Qed.

(** The edges of a non-empty polygon pair each vertex with its successor,
    the last vertex with the first. *)
Lemma edges_cons (v : Point) (l : list Point) :
  edges (v :: l) = combine (v :: l) (l ++ [v]).
Proof.
  unfold edges, range.
  apply nth_ext with (d := edge (v :: l) 0) (d' := ((0, 0), (0, 0))).
  - rewrite length_map, length_seq, length_combine, length_app. length_lia.
  - intros i Hi. rewrite length_map, length_seq in Hi.
    rewrite (map_nth (edge (v :: l)) (seq 0 (length (v :: l))) 0%nat i).
    rewrite seq_nth by exact Hi. rewrite Nat.add_0_l.
    rewrite combine_nth by (rewrite length_app; length_lia).
    unfold edge. f_equal. cbn [length] in *. unfold Point in *.
    destruct (Nat.eq_dec i (length l)) as [->|Hne].
    + replace (length l + 1)%nat with (S (length l)) by lia.
      rewrite Nat.Div0.mod_same. rewrite nth_middle. reflexivity.
    + rewrite Nat.mod_small by lia.
      replace (i + 1)%nat with (S i) by lia. simpl.
      rewrite app_nth1 by lia. reflexivity.
Qed.

Lemma edges_rotate (v : Point) (l : list Point) :
  Permutation (edges (l ++ [v])) (edges (v :: l)).
Proof.
  destruct l as [|w l]; [reflexivity|].
  rewrite edges_cons. simpl app. rewrite edges_cons.
  change (combine (v :: w :: l) ((w :: l) ++ [v]))
    with ((v, w) :: combine (w :: l) (l ++ [v])).
  change (combine (w :: l ++ [v]) ((l ++ [v]) ++ [w]))
    with (combine ((w :: l) ++ [v]) ((l ++ [v]) ++ [w])).
  rewrite combine_snoc by (rewrite length_app; length_lia).
  symmetry. apply Permutation_cons_append.
Qed.

Lemma count_Permutation {A : Type} (f : A -> bool) (l l' : list A) :
  Permutation l l' -> count f l = count f l'.
Proof.
  unfold count.
  induction 1 as [|x l l' _ IH|x y l|l l' l'' _ IH1 _ IH2]; simpl.
  - reflexivity.
  - destruct (f x); simpl; now rewrite IH.
  - destruct (f x), (f y); reflexivity.
  - now rewrite IH1.
Qed.

Lemma point_in_polygon_rotate_one (point v : Point) (l : list Point) :
  point_in_polygon point (l ++ [v]) = point_in_polygon point (v :: l).
Proof.
  rewrite !point_in_polygon_parity.
  now rewrite (count_Permutation _ _ _ (edges_rotate v l)).
Qed.

(** X11.  [point_in_polygon] does not depend on the vertex the polygon
    list starts at: rotating the vertex list leaves the answer unchanged. *)
Theorem point_in_polygon_rotation (point : Point) (l1 l2 : list Point) :
  point_in_polygon point (l2 ++ l1) = point_in_polygon point (l1 ++ l2).
Proof.
  revert l2. induction l1 as [|v l1 IH]; intros l2.
  - now rewrite app_nil_r.
  - change (l2 ++ v :: l1) with (l2 ++ [v] ++ l1).
    rewrite app_assoc, IH, app_assoc, point_in_polygon_rotate_one.
    reflexivity.
Qed.

Lemma edge_endpoints (poly : list Point) (e : Point * Point) :
  In e (edges poly) -> In (fst e) poly /\ In (snd e) poly.
Proof.
  unfold edges, range. rewrite in_map_iff. intros (i & <- & Hi).
  apply in_seq in Hi. unfold edge. simpl. split; apply nth_In.
  - lia.
  - apply Nat.mod_upper_bound. lia.
Qed.

Lemma count_none {A : Type} (f : A -> bool) (l : list A) :
  (forall a, In a l -> f a = false) -> count f l = 0%nat.
Proof.
  unfold count. induction l as [|a l IH]; intros H; simpl; [reflexivity|].
  rewrite (H a (or_introl eq_refl)). apply IH.
  intros b Hb. apply H. now right.
Qed.

(** X12.  A point whose [y] is not below any vertex, or is below every
    vertex, is classified as outside whatever its [x]: no edge straddles
    its horizontal line. *)
Theorem point_in_polygon_outside_band (x y : Q) (poly : list Point) :
  (forall v, In v poly -> snd v <= y) \/ (forall v, In v poly -> y < snd v) ->
  point_in_polygon (x, y) poly = Ok false.
Proof.
  intros H. rewrite point_in_polygon_parity.
  rewrite count_none; [reflexivity|].
  intros e He. destruct (edge_endpoints poly e He) as [Ha Hb].
  unfold crosses_right_guarded, straddles, Qgtb. cbn [fst snd].
  destruct H as [H|H].
  - rewrite (proj2 (Qltb_false _ _) (H _ Ha)).
    rewrite (proj2 (Qltb_false _ _) (H _ Hb)). reflexivity.
  - rewrite (proj2 (Qltb_true _ _) (H _ Ha)).
    rewrite (proj2 (Qltb_true _ _) (H _ Hb)). reflexivity.
Qed.

Lemma point_in_polygon_outside_band_witness :
  ((forall v, In v polygon_points -> snd v <= 500)
   \/ (forall v, In v polygon_points -> 500 < snd v))
  /\ point_in_polygon (200, 500) polygon_points = Ok false.
Proof.
  assert (H : (forall v, In v polygon_points -> snd v <= 500)
              \/ (forall v, In v polygon_points -> 500 < snd v)).
  { left. apply Forall_forall.
    repeat (constructor; [now vm_compute|]). constructor. }
  split; [exact H|].
  exact (point_in_polygon_outside_band 200 500 polygon_points H).
Defined.

(** ** The main loop *)

Lemma handle_events_effect (polygon : list Point) (events : list event) :
  forall st,
    for_each events (handle_event polygon) st =
    Ok (mkState (running st && negb (quit_seen events))
          (guards st ++ accepted_clicks polygon events)).
Proof.
  induction events as [|ev events IH]; intros st.
  - destruct st as [r gs]. simpl. now rewrite andb_true_r, app_nil_r.
  - cbn [for_each]. destruct ev as [|pos|].
    + cbn [handle_event bind]. rewrite IH. cbn [running guards].
      cbn [quit_seen existsb orb negb accepted_clicks flat_map app].
      now rewrite andb_false_r.
    + destruct (handle_click polygon pos st) as [[Hin ->]|[Hin ->]];
        cbn [bind]; rewrite IH;
        cbn [running guards quit_seen existsb orb accepted_clicks flat_map];
        rewrite Hin; [now rewrite <- app_assoc|reflexivity].
    + cbn [handle_event bind]. rewrite IH. reflexivity.
Qed.

(** X15.  A frame never raises.  Afterwards [running] is cleared exactly
    when it was clear before or the frame's events hold a [QUIT], and the
    guards list has gained, in order, the clicked positions that
    [point_in_polygon] accepts, including those that follow a [QUIT] in the
    same batch of events. *)
Theorem frame_effect
  (cos sin : Q -> Q) (atan2 : Q -> Q -> Q) (events : list event) (st : state) :
  frame cos sin atan2 events st =
  Ok (mkState (running st && negb (quit_seen events))
        (guards st ++ accepted_clicks polygon_points events)).
Proof.
  unfold frame.
  destruct (draw_guards_total cos sin atan2 polygon_points (guards st))
    as [drawn ->].
  cbn [bind]. apply handle_events_effect.
Qed.

Section DrawFacts.
Variables cos sin : Q -> Q.
Variable atan2 : Q -> Q -> Q.

Lemma draw_guards_loop (polygon gs : list Point) :
  forall acc,
  exists drawn,
    for_each gs
      (fun guard drawn =>
         vis <- visibility_polygon cos sin atan2 guard polygon ;;
         if (3 <=? length vis)%nat then Ok (drawn ++ [vis]) else Ok drawn)
      acc = Ok (acc ++ drawn)
    /\ (length drawn <= length gs)%nat
    /\ Forall
         (fun vis =>
            (3 <= length vis)%nat
            /\ exists guard,
                 In guard gs
                 /\ visibility_polygon cos sin atan2 guard polygon = Ok vis)
         drawn.
Proof.
  induction gs as [|g gs IH]; intros acc; cbn [for_each].
  - exists []. rewrite app_nil_r.
    split; [reflexivity|]. split; [simpl; lia|constructor].
  - destruct (visibility_polygon_total cos sin atan2 g polygon) as [vis Hvis].
    rewrite Hvis. cbn [bind].
    assert (Hweak :
      forall drawn,
        Forall
          (fun vis =>
             (3 <= length vis)%nat
             /\ exists guard,
                  In guard gs
                  /\ visibility_polygon cos sin atan2 guard polygon = Ok vis)
          drawn ->
        Forall
          (fun vis =>
             (3 <= length vis)%nat
             /\ exists guard,
                  In guard (g :: gs)
                  /\ visibility_polygon cos sin atan2 guard polygon = Ok vis)
          drawn).
    { intros drawn. apply Forall_impl.
      intros v (Hv & g' & Hg' & Hrun). split; [exact Hv|].
      exists g'. split; [now right|exact Hrun]. }
    destruct (3 <=? length vis)%nat eqn:E; cbn [bind].
    + destruct (IH (acc ++ [vis])) as (drawn & -> & Hlen & Hall).
      exists (vis :: drawn). rewrite <- app_assoc.
      split; [reflexivity|]. split; [simpl; lia|].
      constructor; [|now apply Hweak].
      apply Nat.leb_le in E. split; [exact E|].
      exists g. split; [now left|exact Hvis].
    + destruct (IH acc) as (drawn & -> & Hlen & Hall).
      exists drawn. split; [reflexivity|]. split; [simpl; lia|].
      now apply Hweak.
Qed.
End DrawFacts.

(** X16.  Drawing never raises; the overlays handed to the renderer are
    visibility polygons of stored guards with at least three points each, at
    most one per guard, and there is none when the polygon has fewer than
    two vertices. *)
Theorem draw_guards_overlays
  (cos sin : Q -> Q) (atan2 : Q -> Q -> Q) (polygon gs : list Point) :
  exists drawn,
    draw_guards cos sin atan2 polygon gs = Ok drawn
    /\ (length drawn <= length gs)%nat
    /\ Forall
         (fun vis =>
            (3 <= length vis)%nat
            /\ exists guard,
                 In guard gs
                 /\ visibility_polygon cos sin atan2 guard polygon = Ok vis)
         drawn
    /\ ((length polygon < 2)%nat -> drawn = []).
Proof.
  destruct (draw_guards_loop cos sin atan2 polygon gs [])
    as (drawn & Hrun & Hlen & Hall).
  exists drawn. split; [exact Hrun|]. split; [exact Hlen|].
  split; [exact Hall|].
  intros Hdeg. destruct drawn as [|vis drawn]; [reflexivity|].
  inversion Hall as [|? ? (Hvis & g & _ & Hg) _]; subst.
  destruct (visibility_polygon_structure cos sin atan2 g polygon)
    as (inters & Hs & _ & Hin).
  rewrite Hs in Hg. injection Hg as <-.
  destruct inters as [|p inters]; [simpl in Hvis; lia|].
  destruct (Hin p (or_introl eq_refl)) as (a & _ & Hcast).
  rewrite cast_ray_none in Hcast; [discriminate|].
  intros i h. now apply degenerate_edge_no_hit.
Qed.

(** X17.  Guards are never removed or reordered: after any number of
    frames the earlier guards list is a prefix of the later one. *)
Theorem guards_append_only
  (cos sin : Q -> Q) (atan2 : Q -> Q -> Q) (st st' : state) :
  clos_refl_trans_n1 state (step cos sin atan2) st st' ->
  exists added, guards st' = guards st ++ added.
Proof.
  induction 1 as [|st1 st2 Hstep _ IH].
  - exists []. now rewrite app_nil_r.
  - destruct IH as [added IH].
    destruct Hstep as [st1 st2 events _ Hframe].
    unfold frame in Hframe.
    destruct (draw_guards_total cos sin atan2 polygon_points (guards st1))
      as [drawn Hd].
    rewrite Hd in Hframe. cbn [bind] in Hframe.
    rewrite handle_events_effect in Hframe. injection Hframe as <-.
    cbn [guards]. rewrite IH, <- app_assoc. eauto.
Qed.

Lemma guards_append_only_witness :
  clos_refl_trans_n1 state (step (fun _ => 1) (fun _ => 0) (fun y _ => y))
    initial_state (mkState false [(200, 200)])
  /\ exists added,
       guards (mkState false [(200, 200)]) = guards initial_state ++ added.
Proof.
  assert (H : clos_refl_trans_n1 state
                (step (fun _ => 1) (fun _ => 0) (fun y _ => y))
                initial_state (mkState false [(200, 200)])).
  { apply Relation_Operators.rtn1_trans with (y := initial_state);
      [|apply rtn1_refl].
    apply step_frame
      with (events := [MOUSEBUTTONDOWN (200, 200); QUIT;
                       MOUSEBUTTONDOWN (10, 10)]).
    - reflexivity.
    - vm_compute. reflexivity. }
  split; [exact H|].
  exact (guards_append_only (fun _ => 1) (fun _ => 0) (fun y _ => y)
           initial_state (mkState false [(200, 200)]) H).
Defined.

(** ** The sign of the tolerance *)

Lemma dedupe_found_opp (p : Point) (out : list Point) (tol : Q) :
  dedupe_found p out (- tol) = dedupe_found p out tol.
Proof.
  induction out as [|q out IH]; [reflexivity|].
  rewrite !dedupe_found_cons, IH.
  rewrite (Qltb_compat_r (sqdist p q) (- tol * - tol) (tol * tol));
    [reflexivity|ring].
Qed.

Lemma dedupe_loop_opp (points : list Point) (tol : Q) :
  forall out, dedupe_loop points out (- tol) = dedupe_loop points out tol.
Proof.
  induction points as [|p points IH]; intros out; simpl; [reflexivity|].
  rewrite dedupe_found_opp, !IH. reflexivity.
Qed.

(** X21.  Only the square of the tolerance is used: a negative tolerance
    merges exactly as its absolute value does. *)
Theorem dedupe_points_sign (points : list Point) (tol : Q) :
  dedupe_points points (- tol) = dedupe_points points tol.
Proof.
  apply dedupe_loop_opp.
Qed.
